(** * SwiftGit2: the Clibgit2 bridging header and the transport layer it serves

    [Sources/Clibgit2/git2.h] is a declaration-only C header.  The first
    part of this development embeds the header as the translation unit it
    is (its external declarations, in order) together with the C rules for
    laying out a struct, and proves the facts about the declared layout.

    The second part models the transport layer the wrapper structs exist
    for (registry, subtransport, stream, context handle).  That layer is
    not in the header; it is modelled from the specification. *)

From Stdlib Require Import NArith Strings.Byte Strings.Ascii.
From stdpp Require Import base option list strings gmap infinite.

Local Open Scope string_scope.
Local Open Scope nat_scope.

(** ** Part 1: the header *)

Module Header.

(** C types as far as the header writes them: [void], a typedef name
    declared by the libgit2 headers, and pointers. *)
Inductive ctype : Type :=
| Tvoid
| Tnamed (name : string)
| Tpointer (t : ctype).

#[global] Instance ctype_eq_dec : EqDecision ctype.
Proof. solve_decision. Defined.

Record member : Type := Member {
  m_type : ctype;
  m_name : string
}.

Record struct_def : Type := Struct {
  s_tag : string;
  s_members : list member
}.

(** A file-scope object definition: storage class, qualifier, type, name
    and the initializer, which the header writes as a macro name. *)
Record object_def : Type := Object {
  o_static : bool;
  o_const : bool;
  o_type : ctype;
  o_name : string;
  o_init : string
}.

(** The external declarations a C translation unit is made of. *)
Inductive external_decl : Type :=
| PragmaOnce
| Include (header : string)
| DefStruct (s : struct_def)
| DefObject (o : object_def)
| DefFunction (name : string).

(** [struct git_smart_subtransport_swift], lines 7-11. *)
Definition git_smart_subtransport_swift : struct_def :=
  Struct "git_smart_subtransport_swift"
    [ Member (Tnamed "git_smart_subtransport") "parent";
      Member (Tpointer (Tnamed "git_transport")) "owner";
      Member (Tpointer Tvoid) "context" ].

(** [struct git_smart_subtransport_stream_swift], lines 13-16. *)
Definition git_smart_subtransport_stream_swift : struct_def :=
  Struct "git_smart_subtransport_stream_swift"
    [ Member (Tnamed "git_smart_subtransport_stream") "parent";
      Member (Tpointer Tvoid) "context" ].

(** [static git_status_options git_status_options_init_value =
    GIT_STATUS_OPTIONS_INIT;], line 18. *)
Definition git_status_options_init_value : object_def :=
  Object true false (Tnamed "git_status_options")
    "git_status_options_init_value" "GIT_STATUS_OPTIONS_INIT".

(** The whole header, top to bottom. *)
Definition git2_h : list external_decl :=
  [ PragmaOnce;
    Include "git2.h";
    Include "git2/sys/errors.h";
    Include "git2/sys/transport.h";
    DefStruct git_smart_subtransport_swift;
    DefStruct git_smart_subtransport_stream_swift;
    DefObject git_status_options_init_value ].

(** *** Views on a translation unit *)

Definition struct_defs (tu : list external_decl) : list struct_def :=
  omap (λ d, match d with DefStruct s => Some s | _ => None end) tu.

Definition object_defs (tu : list external_decl) : list object_def :=
  omap (λ d, match d with DefObject o => Some o | _ => None end) tu.

Definition function_defs (tu : list external_decl) : list string :=
  omap (λ d, match d with DefFunction f => Some f | _ => None end) tu.

(** A preprocessor line defines nothing. *)
Definition is_directive (d : external_decl) : bool :=
  match d with
  | PragmaOnce | Include _ => true
  | _ => false
  end.

Definition definitions (tu : list external_decl) : list external_decl :=
  filter (λ d, is_directive d = false) tu.

(** *** Members of a struct *)

Fixpoint index_from (i : nat) (name : string) (ms : list member) : option nat :=
  match ms with
  | [] => None
  | m :: ms' =>
      if decide (m_name m = name) then Some i
      else index_from (S i) name ms'
  end.

Definition member_index (s : struct_def) (name : string) : option nat :=
  index_from 0 name (s_members s).

Definition member_type (s : struct_def) (name : string) : option ctype :=
  i ← member_index s name; m_type <$> s_members s !! i.

(** [a] is declared before [b] in [s]. *)
Definition declared_before (s : struct_def) (a b : string) : bool :=
  match member_index s a, member_index s b with
  | Some i, Some j => bool_decide (i < j)
  | _, _ => false
  end.

(** *** Struct layout

    C places the members of a struct in declaration order, each one at
    the first offset not below the end of the previous member that is a
    multiple of the member's alignment.  Sizes and alignments of the
    libgit2 types come from headers outside this file, so the layout is
    stated for any of them. *)

Section Layout.
Variables sizeof alignof : ctype → N.

Definition align_up (off a : N) : N :=
  if (a =? 0)%N then off else ((off + a - 1) / a * a)%N.

Fixpoint offset_from (off : N) (name : string) (ms : list member)
    : option N :=
  match ms with
  | [] => None
  | m :: ms' =>
      let o := align_up off (alignof (m_type m)) in
      if decide (m_name m = name) then Some o
      else offset_from (o + sizeof (m_type m))%N name ms'
  end.

Definition offsetof (s : struct_def) (name : string) : option N :=
  offset_from 0 name (s_members s).

(** Address of member [name] of the instance of [s] at address [base]. *)
Definition member_addr (base : N) (s : struct_def) (name : string) : option N :=
  (λ o, (base + o)%N) <$> offsetof s name.

(** The end of the last member when [ms] are laid out from [off] on. *)
Fixpoint end_from (off : N) (ms : list member) : N :=
  match ms with
  | [] => off
  | m :: ms' =>
      end_from (align_up off (alignof (m_type m)) + sizeof (m_type m))%N ms'
  end.

(** A struct is as aligned as its most aligned member. *)
Definition struct_align (s : struct_def) : N :=
  foldr (λ m a, N.max (alignof (m_type m)) a) 1%N (s_members s).

(** The size of a struct: the end of its last member, rounded up to the
    alignment of the struct (the tail padding). *)
Definition struct_size (s : struct_def) : N :=
  align_up (end_from 0 (s_members s)) (struct_align s).
End Layout.

(** *** Objects and assignment

    An lvalue can be assigned to unless its type is const-qualified; a
    file-scope [static] has internal linkage, so every translation unit
    that includes the header gets an object of its own. *)

Inductive linkage : Type := Internal | External.

Definition linkage_of (o : object_def) : linkage :=
  if o_static o then Internal else External.

Definition modifiable (o : object_def) : bool := negb (o_const o).

(** The value an object holds: what its initializer wrote, or what a
    later assignment stored. *)
Inductive cvalue : Type :=
| Vinit (macro : string)
| Vstored (n : N).

#[global] Instance cvalue_eq_dec : EqDecision cvalue.
Proof. solve_decision. Defined.

(** The objects of one translation unit right after program start-up. *)
Definition initial_store (tu : list external_decl) : gmap string cvalue :=
  list_to_map ((λ o, (o_name o, Vinit (o_init o))) <$> object_defs tu).

(** [o = v;] in some function of an including file: rejected for a const
    object, stores [v] otherwise. *)
Definition assign (o : object_def) (v : cvalue) (σ : gmap string cvalue)
  : option (gmap string cvalue) :=
  if modifiable o then Some (<[o_name o := v]> σ) else None.

(** *** What the layout claims say about one wrapper struct *)

(** The first member of [s] is the native struct, under the name [parent]. *)
Definition embeds_first (s : struct_def) (native : string) : Prop :=
  head (s_members s) = Some (Member (Tnamed native) "parent").

(** The context pointer of [s] follows the embedded native struct: it is
    a [void *] declared after [parent] and starts at or after the end of
    [parent]. *)
Definition context_follows_parent (sizeof alignof : ctype → N)
    (s : struct_def) (native : string) : Prop :=
  embeds_first s native ∧
  member_type s "context" = Some (Tpointer Tvoid) ∧
  declared_before s "parent" "context" = true ∧
  ∃ off, offsetof sizeof alignof s "context" = Some off ∧
         (sizeof (Tnamed native) ≤ off)%N.

End Header.

(** ** Part 2: the transport layer

    The header only declares the two wrapper structs; the registry, the
    subtransport, its streams and the life cycle of the context handle
    are not part of it.  Every definition of this module is modelled from
    the specification (sections 3, 4 and 7). *)

Module Transport.

(** Modelled from the spec: the error taxonomy of section 7; the
    implementation that raises these errors is not in the header. *)
Inductive Error : Type :=
| InvalidURLError
| UnsupportedSchemeError
| DuplicateSchemeError
| SequenceError
| ConnectionError
| StreamIOError
| HandleReleaseError.

#[global] Instance Error_eq_dec : EqDecision Error.
Proof. solve_decision. Defined.

(** Modelled from the spec: an operation either returns a value or fails
    with one error of the taxonomy (the operations' results are missing
    from the header). *)
Inductive Result (A : Type) : Type :=
| Ok (a : A)
| Err (e : Error).
Arguments Ok {A} a.
Arguments Err {A} e.

(** Modelled from the spec: an operation succeeds when it returns a
    value rather than an error; the operations are missing from the
    header. *)
Definition succeeds {A} (r : Result A) : bool :=
  match r with Ok _ => true | Err _ => false end.

(** *** Transport registry (section 4.1) *)

(** Modelled from the spec: the scheme prefix of a URL, the text before
    the first [://]; the URL parser is missing from the header. *)
Fixpoint scheme_of (url : string) : option string :=
  match url with
  | EmptyString => None
  | String c rest =>
      if String.prefix "://" url then Some EmptyString
      else String c <$> scheme_of rest
  end.

Section Registry.
Context {Factory : Type}.

(** Modelled from the spec: [register(scheme, factory)], which fails
    with [DuplicateSchemeError] if the scheme is already registered;
    the registry is missing from the header. *)
Definition register (scheme : string) (factory : Factory)
    (reg : gmap string Factory) : Result unit * gmap string Factory :=
  match reg !! scheme with
  | Some _ => (Err DuplicateSchemeError, reg)
  | None => (Ok (), <[scheme := factory]> reg)
  end.

(** Modelled from the spec: [resolve(url)], which parses the scheme
    prefix and fails with [UnsupportedSchemeError] if no registered
    scheme matches; the registry is missing from the header. *)
Definition resolve (url : string) (reg : gmap string Factory)
    : Result Factory :=
  match scheme_of url with
  | None => Err UnsupportedSchemeError
  | Some scheme =>
      match reg !! scheme with
      | Some factory => Ok factory
      | None => Err UnsupportedSchemeError
      end
  end.

(** Modelled from the spec: process-wide set-up, a run of [register]
    calls made before any connection attempt; the set-up code is
    missing from the header. *)
Fixpoint register_all (calls : list (string * Factory))
    (reg : gmap string Factory) : list (Result unit) * gmap string Factory :=
  match calls with
  | [] => ([], reg)
  | (scheme, factory) :: calls' =>
      let '(r, reg1) := register scheme factory reg in
      let '(rs, reg2) := register_all calls' reg1 in
      (r :: rs, reg2)
  end.
End Registry.

(** *** Context handle (section 3) *)

(** Modelled from the spec: what the process-wide handle table keeps for
    one ContextHandle: the managed object the handle stands for and how
    many times the handle has been released.  The table is keyed by the
    handle, the value a wrapper struct carries in [void *context]; it is
    missing from the header. *)
Record ContextHandle : Type := Handle {
  h_object : N;
  h_releases : nat
}.

(** Modelled from the spec: a handle for the managed object [obj] is an
    index the table has not used yet, so that no two native objects
    reference the same handle.  The table is missing from the header. *)
Definition issue (obj : N) (tbl : gmap N ContextHandle)
    : N * gmap N ContextHandle :=
  let h := fresh (dom tbl) in (h, <[h := Handle obj 0]> tbl).

(** Modelled from the spec: releasing the handle [h].  Every release is
    counted; any release but the first one of an issued handle is the
    double-release error [HandleReleaseError].  The releasing code is
    missing from the header. *)
Definition release (h : N) (tbl : gmap N ContextHandle)
    : Result unit * gmap N ContextHandle :=
  match tbl !! h with
  | None => (Err HandleReleaseError, tbl)
  | Some e =>
      (match h_releases e with
       | 0 => Ok ()
       | S _ => Err HandleReleaseError
       end,
       <[h := Handle (h_object e) (S (h_releases e))]> tbl)
  end.

(** *** Stream (section 4.3) *)

(** Modelled from the spec: the four actions of the smart protocol (the
    [action] attribute of a stream); the enum is declared by libgit2,
    outside the header. *)
Inductive Action : Type :=
| UploadPackLs | UploadPack | ReceivePackLs | ReceivePack.

(** Modelled from the spec: the [direction] attribute of a stream; its
    declaration is missing from the header. *)
Inductive Direction : Type := ReadOnly | Duplex.

(** Modelled from the spec: what the underlying transport does while a
    blocking call waits on it: it moves at most [burst] bytes (chunking
    on read, backpressure on write), or it fails.  The concrete
    transports are missing from the header. *)
Inductive Transfer : Type :=
| Moves (burst : positive)
| Fails.

(** Modelled from the spec: SubtransportStream with the attributes
    [action], [direction], [closed] and the context handle of its wrapper
    struct.  [inbound] is what the remote still has to deliver (its end is
    end-of-data), [buffered] the output accepted by [write] and not yet
    flushed, [sent] the output handed to the transport.  The stream
    implementation is missing from the header. *)
Record SubtransportStream : Type := Stream {
  action_of : Action;
  direction : Direction;
  closed : bool;
  stream_context : N;
  inbound : list byte;
  buffered : list byte;
  sent : list byte
}.

(** Modelled from the spec: [read(maxBytes)].  Nothing succeeds on a
    closed stream; a failure of the underlying transport is
    [StreamIOError], also at end-of-data; otherwise at most [maxBytes]
    bytes of the current chunk are returned, which at end-of-data is the
    zero-length result.  The spec names no error for a read on a closed
    stream; [StreamIOError] is the only error its read contract lists.
    The stream implementation is missing from the header. *)
Definition read (maxBytes : nat) (t : Transfer) (s : SubtransportStream)
    : Result (list byte) * SubtransportStream :=
  if closed s then (Err StreamIOError, s)
  else match t with
       | Fails => (Err StreamIOError, s)
       | Moves burst =>
           let n := Nat.min maxBytes (Pos.to_nat burst) in
           (Ok (take n (inbound s)),
            Stream (action_of s) (direction s) false (stream_context s)
                   (drop n (inbound s)) (buffered s) (sent s))
       end.

(** Modelled from the spec: [write(bytes)], which may accept fewer bytes
    than requested under backpressure and fails with [StreamIOError]
    like [read].  The stream implementation is missing from the header. *)
Definition write (bytes : list byte) (t : Transfer) (s : SubtransportStream)
    : Result nat * SubtransportStream :=
  if closed s then (Err StreamIOError, s)
  else match t with
       | Fails => (Err StreamIOError, s)
       | Moves burst =>
           let n := Nat.min (length bytes) (Pos.to_nat burst) in
           (Ok n,
            Stream (action_of s) (direction s) false (stream_context s)
                   (inbound s) (buffered s ++ take n bytes) (sent s))
       end.

(** Modelled from the spec: [close()] of a stream: a no-op on a closed
    stream; otherwise it flushes the buffered output when the direction
    is [Duplex] and marks the stream closed.  The handle of the stream's
    wrapper struct is released where the handle table is at hand, see
    [stream_destroy].  The stream implementation is missing from the
    header. *)
Definition stream_close (s : SubtransportStream)
    : Result unit * SubtransportStream :=
  if closed s then (Ok (), s)
  else (Ok (),
        match direction s with
        | Duplex =>
            Stream (action_of s) Duplex true (stream_context s) (inbound s)
                   [] (sent s ++ buffered s)
        | ReadOnly =>
            Stream (action_of s) ReadOnly true (stream_context s)
                   (inbound s) (buffered s) (sent s)
        end).

(** Modelled from the spec: the end of a stream's wrapper struct: the
    stream is closed and, if it was not closed before, its context
    handle is released.  The stream implementation is missing from the
    header. *)
Definition stream_destroy (s : SubtransportStream)
    (tbl : gmap N ContextHandle)
    : Result unit * SubtransportStream * gmap N ContextHandle :=
  if closed s then (Ok (), s, tbl)
  else let '(r, tbl') := release (stream_context s) tbl in
       (r, (stream_close s).2, tbl').

(** *** Subtransport (section 4.2) *)

(** Modelled from the spec: the [connectionState] attribute of a
    subtransport; its declaration is missing from the header. *)
Inductive ConnectionState : Type :=
| Created | Opening | Open | Closed | Failed.

#[global] Instance ConnectionState_eq_dec : EqDecision ConnectionState.
Proof. solve_decision. Defined.

(** Modelled from the spec: Subtransport with the attributes [remoteURL],
    [connectionState] and [ownerHandle] ([git_transport *owner] of the
    wrapper struct), the context handle ([void *context] of the wrapper
    struct), the direction it was opened with and every stream it has
    opened so far, oldest first.  The subtransport implementation is
    missing from the header. *)
Record Subtransport : Type := Sub {
  remoteURL : string;
  connectionState : ConnectionState;
  ownerHandle : N;
  context : N;
  opened_as : Direction;
  streams : list SubtransportStream
}.

(** Modelled from the spec: a subtransport after a change of its
    connection state, resp. of its streams; the code that updates a
    subtransport is missing from the header. *)
Definition with_state (cs : ConnectionState) (st : Subtransport) : Subtransport :=
  Sub (remoteURL st) cs (ownerHandle st) (context st) (opened_as st) (streams st).

(** Modelled from the spec: see [with_state]; the code that updates a
    subtransport is missing from the header. *)
Definition with_streams (ss : list SubtransportStream) (st : Subtransport)
    : Subtransport :=
  Sub (remoteURL st) (connectionState st) (ownerHandle st) (context st)
      (opened_as st) ss.

(** Modelled from the spec: the active (non-closed) streams of a
    subtransport, the subject of its invariant; the subtransport
    implementation is missing from the header. *)
Definition active_streams (st : Subtransport) : list SubtransportStream :=
  filter (λ s, closed s = false) (streams st).

(** Modelled from the spec: the test [action] makes, whether a previous
    stream is still open; the subtransport implementation is missing
    from the header. *)
Definition has_active_stream (st : Subtransport) : bool :=
  existsb (λ s, negb (closed s)) (streams st).

(** Modelled from the spec: [open(url, direction)], which validates the
    URL syntax (here: the URL has a scheme prefix), fails with
    [InvalidURLError] and does no network I/O.  [owner] is the pointer
    the factory stores in [owner] of the wrapper struct, [obj] the
    managed object for which a handle is issued and stored in
    [context].  The subtransport implementation is missing from the
    header. *)
Definition open (url : string) (dir : Direction) (owner obj : N)
    (tbl : gmap N ContextHandle)
    : Result Subtransport * gmap N ContextHandle :=
  match scheme_of url with
  | None => (Err InvalidURLError, tbl)
  | Some _ =>
      let '(h, tbl') := issue obj tbl in
      (Ok (Sub url Created owner h dir []), tbl')
  end.

(** Modelled from the spec: [action(type)].  It fails with
    [SequenceError] if a previous stream of this subtransport is still
    open, with [ConnectionError] if the network or process spawn fails
    ([conn = None]); on success the state becomes [Open] and the new
    stream, which will deliver [data] and whose wrapper struct gets a
    handle issued for [obj], is returned by its position.  The spec is
    silent on a subtransport that is already [Closed] or [Failed]: the
    first is taken as a protocol-order violation, the second as a dead
    connection.  The subtransport implementation is missing from the
    header. *)
Definition action (ty : Action) (obj : N) (conn : option (list byte))
    (st : Subtransport) (tbl : gmap N ContextHandle)
    : Result nat * Subtransport * gmap N ContextHandle :=
  if has_active_stream st then (Err SequenceError, st, tbl)
  else match connectionState st with
       | Closed => (Err SequenceError, st, tbl)
       | Failed => (Err ConnectionError, st, tbl)
       | _ =>
           match conn with
           | None => (Err ConnectionError, with_state Failed st, tbl)
           | Some data =>
               let '(h, tbl') := issue obj tbl in
               (Ok (length (streams st)),
                Sub (remoteURL st) Open (ownerHandle st) (context st)
                    (opened_as st)
                    (streams st ++
                       [Stream ty (opened_as st) false h data [] []]),
                tbl')
           end
       end.

(** Modelled from the spec: the subtransport becomes [Failed] when an
    unrecoverable I/O error occurs, that is when the transport fails
    under a stream that was not closed.  The subtransport implementation
    is missing from the header. *)
Definition after_io {A} (was_closed : bool) (r : Result A)
    (cs : ConnectionState) : ConnectionState :=
  match r with
  | Err StreamIOError => if was_closed then cs else Failed
  | _ => cs
  end.

(** Modelled from the spec: the driver's [read], [write] and [close] on
    the stream at position [i] of a subtransport.  A position that names
    no stream is a protocol-order violation.  The stream implementation
    is missing from the header. *)
Definition stream_read (i maxBytes : nat) (t : Transfer) (st : Subtransport)
    : Result (list byte) * Subtransport :=
  match streams st !! i with
  | None => (Err SequenceError, st)
  | Some s =>
      let '(r, s') := read maxBytes t s in
      (r, with_state (after_io (closed s) r (connectionState st))
            (with_streams (<[i := s']> (streams st)) st))
  end.

(** Modelled from the spec: see [stream_read]; the stream implementation
    is missing from the header. *)
Definition stream_write (i : nat) (bytes : list byte) (t : Transfer)
    (st : Subtransport) : Result nat * Subtransport :=
  match streams st !! i with
  | None => (Err SequenceError, st)
  | Some s =>
      let '(r, s') := write bytes t s in
      (r, with_state (after_io (closed s) r (connectionState st))
            (with_streams (<[i := s']> (streams st)) st))
  end.

(** Modelled from the spec: see [stream_read]; a stream's [close()] is no
    I/O error and leaves the connection state alone.  The stream
    implementation is missing from the header. *)
Definition stream_close_at (i : nat) (st : Subtransport)
    (tbl : gmap N ContextHandle)
    : Result unit * Subtransport * gmap N ContextHandle :=
  match streams st !! i with
  | None => (Err SequenceError, st, tbl)
  | Some s =>
      let '(r, s', tbl') := stream_destroy s tbl in
      (r, with_streams (<[i := s']> (streams st)) st, tbl')
  end.

(** Modelled from the spec: a stream is closed implicitly when its
    subtransport closes.  The subtransport implementation is missing
    from the header. *)
Fixpoint close_streams (ss : list SubtransportStream)
    (tbl : gmap N ContextHandle)
    : Result (list SubtransportStream) * gmap N ContextHandle :=
  match ss with
  | [] => (Ok [], tbl)
  | s :: ss' =>
      match stream_destroy s tbl with
      | (Err e, _, tbl1) => (Err e, tbl1)
      | (Ok _, s', tbl1) =>
          match close_streams ss' tbl1 with
          | (Err e, tbl2) => (Err e, tbl2)
          | (Ok ss'', tbl2) => (Ok (s' :: ss''), tbl2)
          end
      end
  end.

(** Modelled from the spec: [close()] of a subtransport: a no-op when it
    is already [Closed]; otherwise it closes its streams, releases the
    context handle and becomes [Closed].  The subtransport
    implementation is missing from the header. *)
Definition close (st : Subtransport) (tbl : gmap N ContextHandle)
    : Result unit * Subtransport * gmap N ContextHandle :=
  match connectionState st with
  | Closed => (Ok (), st, tbl)
  | _ =>
      match close_streams (streams st) tbl with
      | (Err e, tbl1) => (Err e, st, tbl1)
      | (Ok ss, tbl1) =>
          match release (context st) tbl1 with
          | (Err e, tbl2) => (Err e, st, tbl2)
          | (Ok _, tbl2) =>
              (Ok (),
               Sub (remoteURL st) Closed (ownerHandle st) (context st)
                   (opened_as st) ss,
               tbl2)
          end
      end
  end.

(** *** The protocol driver's calls *)

(** Modelled from the spec: the calls the protocol driver makes on one
    subtransport and its streams, with what the environment does during
    each; the driver is external to the header. *)
Inductive Call : Type :=
| CallAction (ty : Action) (obj : N) (conn : option (list byte))
| CallRead (i maxBytes : nat) (t : Transfer)
| CallWrite (i : nat) (bytes : list byte) (t : Transfer)
| CallStreamClose (i : nat)
| CallClose.

(** Modelled from the spec: what a call returns on success: the new
    stream, the bytes read, the number of bytes written, or nothing.
    The operations are missing from the header. *)
Inductive Reply : Type :=
| Opened (i : nat)
| Data (bytes : list byte)
| Written (n : nat)
| Done.

(** Modelled from the spec: the result of an operation as the result of
    a call; the operations are missing from the header. *)
Definition reply {A} (f : A → Reply) (r : Result A) : Result Reply :=
  match r with
  | Ok a => Ok (f a)
  | Err e => Err e
  end.

(** Modelled from the spec: one call of the driver, dispatched to the
    operation it names; the handle table is passed along.  The driver is
    external to the header. *)
Definition step (c : Call) (st : Subtransport) (tbl : gmap N ContextHandle)
    : Result Reply * Subtransport * gmap N ContextHandle :=
  match c with
  | CallAction ty obj conn =>
      let '(r, st', tbl') := action ty obj conn st tbl in
      (reply Opened r, st', tbl')
  | CallRead i maxBytes t =>
      let '(r, st') := stream_read i maxBytes t st in (reply Data r, st', tbl)
  | CallWrite i bytes t =>
      let '(r, st') := stream_write i bytes t st in
      (reply Written r, st', tbl)
  | CallStreamClose i =>
      let '(r, st', tbl') := stream_close_at i st tbl in
      (reply (λ _, Done) r, st', tbl')
  | CallClose =>
      let '(r, st', tbl') := close st tbl in (reply (λ _, Done) r, st', tbl')
  end.

(** Modelled from the spec: the driver calls synchronously, in sequence;
    a run returns the result of every call, the final state and the
    final handle table.  The driver is external to the header. *)
Fixpoint run (cs : list Call) (st : Subtransport) (tbl : gmap N ContextHandle)
    : list (Result Reply) * Subtransport * gmap N ContextHandle :=
  match cs with
  | [] => ([], st, tbl)
  | c :: cs' =>
      let '(r, st1, tbl1) := step c st tbl in
      let '(rs, st2, tbl2) := run cs' st1 tbl1 in
      (r :: rs, st2, tbl2)
  end.

(** Modelled from the spec: the driver's calls on one stream taken on its
    own; the driver is external to the header. *)
Inductive StreamCall : Type :=
| SRead (maxBytes : nat) (t : Transfer)
| SWrite (bytes : list byte) (t : Transfer)
| SClose.

(** Modelled from the spec: one call on a stream, dispatched to [read],
    [write] or [close]; the driver is external to the header. *)
Definition stream_step (c : StreamCall) (s : SubtransportStream)
    : Result Reply * SubtransportStream :=
  match c with
  | SRead maxBytes t => let '(r, s') := read maxBytes t s in (reply Data r, s')
  | SWrite bytes t => let '(r, s') := write bytes t s in (reply Written r, s')
  | SClose => let '(r, s') := stream_close s in (reply (λ _, Done) r, s')
  end.

(** Modelled from the spec: a sequence of calls on one stream; the
    driver is external to the header. *)
Fixpoint stream_run (cs : list StreamCall) (s : SubtransportStream)
    : list (Result Reply) * SubtransportStream :=
  match cs with
  | [] => ([], s)
  | c :: cs' =>
      let '(r, s1) := stream_step c s in
      let '(rs, s2) := stream_run cs' s1 in
      (r :: rs, s2)
  end.

(** *** Predicates used to state the properties *)

(** A scheme without a colon; the scheme of [scheme://rest] is then
    [scheme]. *)
Fixpoint colon_free (s : string) : bool :=
  match s with
  | EmptyString => true
  | String c s' => negb (Ascii.eqb c ":"%char) && colon_free s'
  end.

Definition is_close (c : Call) : bool :=
  match c with CallClose => true | _ => false end.

(** The run calls [close()] on the subtransport at least once. *)
Definition closes (cs : list Call) : bool := existsb is_close cs.

Definition is_io (c : StreamCall) : bool :=
  match c with SClose => false | _ => true end.

(** The handles a subtransport and its streams carry in their wrapper
    structs. *)
Definition held (st : Subtransport) : list N :=
  context st :: (stream_context <$> streams st).

(** The table records for [h] one release if its object is closed and
    none otherwise. *)
Definition released_iff (is_closed : bool) (h : N)
    (tbl : gmap N ContextHandle) : Prop :=
  ∃ obj, tbl !! h = Some (Handle obj (if is_closed then 1 else 0)).

Definition stream_ok (tbl : gmap N ContextHandle) (s : SubtransportStream)
    : Prop :=
  released_iff (closed s) (stream_context s) tbl.

(** Every handle of [tbl] is a handle of [tbl'], for the same object. *)
Definition extends (tbl tbl' : gmap N ContextHandle) : Prop :=
  ∀ h obj n, tbl !! h = Some (Handle obj n) →
             ∃ n', tbl' !! h = Some (Handle obj n').

(** The invariant of a subtransport and the handle table; [base] is the
    table the subtransport was opened on. *)
Record consistent (base : gmap N ContextHandle) (st : Subtransport)
    (tbl : gmap N ContextHandle) : Prop := Consistent {
  c_context :
    released_iff (bool_decide (connectionState st = Closed)) (context st) tbl;
  c_streams : Forall (stream_ok tbl) (streams st);
  c_distinct : NoDup (held st);
  c_frame : ∀ h, h ∈ dom base → (h ∉ held st) ∧ tbl !! h = base !! h;
  c_single : length (active_streams st) ≤ 1;
  c_closed : connectionState st = Closed → active_streams st = []
}.

End Transport.

(** ** Facts about the header *)

Section HeaderFacts.
Import Header.

Lemma align_up_zero (a : N) : align_up 0 a = 0%N.
Proof.
  unfold align_up. destruct (N.eqb_spec a 0) as [->|Ha]; [done|].
  replace (0 + a - 1)%N with (a - 1)%N by lia.
  rewrite N.div_small by lia. done.
Qed.

Lemma align_up_ge (off a : N) : (off ≤ align_up off a)%N.
Proof.
  unfold align_up. destruct (N.eqb_spec a 0) as [->|Ha]; [lia|].
  pose proof (N.div_mod' (off + a - 1) a) as Hdm.
  pose proof (N.mod_lt (off + a - 1) a Ha) as Hlt.
  nia.
Qed.

(** The first declared member of any struct sits at offset zero. *)
Lemma first_member_offset (sizeof alignof : ctype → N) (s : struct_def)
    (m : member) (ms : list member) :
  s_members s = m :: ms → offsetof sizeof alignof s (m_name m) = Some 0%N.
Proof.
  intros Hs. unfold offsetof. rewrite Hs. simpl.
  rewrite decide_True by done. by rewrite align_up_zero.
Qed.

(** C3: in both wrapper structs the embedded native struct [parent] is
    the first declared member, so whatever the sizes and alignments of
    the member types are, [parent] is at offset zero and the address of
    [parent] in an instance is the address of the instance. *)
Theorem parent_at_offset_zero (sizeof alignof : ctype → N) (base : N) :
  embeds_first git_smart_subtransport_swift "git_smart_subtransport" ∧
  embeds_first git_smart_subtransport_stream_swift
    "git_smart_subtransport_stream" ∧
  offsetof sizeof alignof git_smart_subtransport_swift "parent" = Some 0%N ∧
  offsetof sizeof alignof git_smart_subtransport_stream_swift "parent"
    = Some 0%N ∧
  member_addr sizeof alignof base git_smart_subtransport_swift "parent"
    = Some base ∧
  member_addr sizeof alignof base git_smart_subtransport_stream_swift "parent"
    = Some base.
Proof.
  assert (H1 : offsetof sizeof alignof git_smart_subtransport_swift "parent"
               = Some 0%N)
    by exact (first_member_offset sizeof alignof
                git_smart_subtransport_swift (Member _ "parent") _ eq_refl).
  assert (H2 : offsetof sizeof alignof git_smart_subtransport_stream_swift
                 "parent" = Some 0%N)
    by exact (first_member_offset sizeof alignof
                git_smart_subtransport_stream_swift (Member _ "parent") _
                eq_refl).
  unfold member_addr. rewrite H1, H2. simpl. rewrite N.add_0_r.
  repeat split; reflexivity.
Qed.

(** C2, as stated, fails: in neither wrapper struct is [context] declared
    before [parent]. *)
Lemma context_not_before_parent :
  ¬ (declared_before git_smart_subtransport_swift "context" "parent" = true) ∧
  ¬ (declared_before git_smart_subtransport_stream_swift "context" "parent"
     = true).
Proof. split; vm_compute; discriminate. Qed.

(** C2, amended: each wrapper struct embeds the native vtable struct as
    its first member and places the opaque [void *context] after it: the
    pointer is declared after [parent] and its offset is at least the
    size of the native struct. *)
Theorem context_placed_after_parent (sizeof alignof : ctype → N) :
  context_follows_parent sizeof alignof git_smart_subtransport_swift
    "git_smart_subtransport" ∧
  context_follows_parent sizeof alignof git_smart_subtransport_stream_swift
    "git_smart_subtransport_stream".
Proof.
  split; (split; [reflexivity|]); (split; [reflexivity|]);
    (split; [reflexivity|]); eexists; (split; [reflexivity|]).
  - simpl. rewrite align_up_zero.
    etrans; [|apply align_up_ge]. etrans; [|apply N.le_add_r].
    etrans; [|apply align_up_ge]. lia.
  - simpl. rewrite align_up_zero. etrans; [|apply align_up_ge]. lia.
Qed.

(** C4: the header defines exactly two structs and one static object,
    the status-options initializer value, and no function: apart from
    preprocessor lines it contains nothing else. *)
Theorem header_defines_two_structs_and_one_value :
  definitions git2_h =
    [ DefStruct git_smart_subtransport_swift;
      DefStruct git_smart_subtransport_stream_swift;
      DefObject git_status_options_init_value ] ∧
  struct_defs git2_h =
    [ git_smart_subtransport_swift; git_smart_subtransport_stream_swift ] ∧
  object_defs git2_h = [ git_status_options_init_value ] ∧
  function_defs git2_h = [] ∧
  o_static git_status_options_init_value = true ∧
  o_type git_status_options_init_value = Tnamed "git_status_options" ∧
  o_init git_status_options_init_value = "GIT_STATUS_OPTIONS_INIT".
Proof. repeat split; reflexivity. Qed.

(** C6, as stated, fails: the object is not const-qualified, so an
    assignment to it is accepted and changes the value it holds. *)
Lemma init_value_is_assignable :
  ∃ σ, assign git_status_options_init_value (Vstored 0)
         (initial_store git2_h) = Some σ ∧
       σ !! o_name git_status_options_init_value ≠
       initial_store git2_h !! o_name git_status_options_init_value.
Proof.
  eexists. split; [reflexivity|]. simpl.
  rewrite lookup_insert_eq. vm_compute. discriminate.
Qed.

(** C6, amended: the header defines [git_status_options_init_value] as a
    file-scope static object (internal linkage) that starts out holding
    [GIT_STATUS_OPTIONS_INIT]; the header has no function, so nothing in
    it assigns to the object; the object is not const-qualified, so an
    assignment by including code is accepted. *)
Theorem init_value_initialized_not_const :
  object_defs git2_h = [ git_status_options_init_value ] ∧
  initial_store git2_h !! o_name git_status_options_init_value
    = Some (Vinit "GIT_STATUS_OPTIONS_INIT") ∧
  function_defs git2_h = [] ∧
  linkage_of git_status_options_init_value = Internal ∧
  modifiable git_status_options_init_value = true ∧
  ∀ v σ, assign git_status_options_init_value v σ
         = Some (<[o_name git_status_options_init_value := v]> σ).
Proof.
  split; [reflexivity|]. split; [by vm_compute|].
  repeat split; reflexivity.
Qed.

End HeaderFacts.

(** ** The layout of the wrapper structs under any ABI *)

Section WrapperLayout.
Import Header.
Variables sizeof alignof : ctype → N.

Local Abbreviation native_sub := (Tnamed "git_smart_subtransport").
Local Abbreviation native_stream := (Tnamed "git_smart_subtransport_stream").
Local Abbreviation owner_ptr := (Tpointer (Tnamed "git_transport")).
Local Abbreviation void_ptr := (Tpointer Tvoid).



Lemma align_up_exact (off a : N) : (off mod a = 0)%N → align_up off a = off.
Proof.
  intros Hm. unfold align_up. destruct (N.eqb_spec a 0) as [|Ha]; [done|].
  pose proof (N.div_mod' off a) as Hoff. rewrite Hm, N.add_0_r in Hoff.
  replace (off + a - 1)%N with ((a - 1) + (off / a) * a)%N by lia.
  rewrite N.div_add by done. rewrite N.div_small by lia. lia.
Qed.

(** The offsets of the members of [git_smart_subtransport_swift], the end
    of its last member and its alignment, computed member by member. *)
Lemma subtransport_layout :
  let oo := align_up (sizeof native_sub) (alignof owner_ptr) in
  let oc := align_up (oo + sizeof owner_ptr) (alignof void_ptr) in
  offsetof sizeof alignof git_smart_subtransport_swift "parent" = Some 0%N ∧
  offsetof sizeof alignof git_smart_subtransport_swift "owner" = Some oo ∧
  offsetof sizeof alignof git_smart_subtransport_swift "context" = Some oc ∧
  struct_size sizeof alignof git_smart_subtransport_swift
    = align_up (oc + sizeof void_ptr)
        (struct_align alignof git_smart_subtransport_swift).
Proof.
  unfold struct_size, offsetof. simpl. rewrite align_up_zero, N.add_0_l.
  done.
Qed.

Lemma stream_layout :
  let oc := align_up (sizeof native_stream) (alignof void_ptr) in
  offsetof sizeof alignof git_smart_subtransport_stream_swift "parent"
    = Some 0%N ∧
  offsetof sizeof alignof git_smart_subtransport_stream_swift "context"
    = Some oc ∧
  struct_size sizeof alignof git_smart_subtransport_stream_swift
    = align_up (oc + sizeof void_ptr)
        (struct_align alignof git_smart_subtransport_stream_swift).
Proof.
  unfold struct_size, offsetof. simpl. rewrite align_up_zero, N.add_0_l.
  done.
Qed.

(** X1: under any sizes and alignments the members of each wrapper
    struct lie one after the other without overlap and inside the
    struct: [parent] starts at 0, [owner] starts at or after the end of
    [parent], [context] at or after the end of the member before it, and
    [context] ends within the size of the wrapper. *)
Theorem wrapper_members_do_not_overlap :
  (∃ oo oc,
     offsetof sizeof alignof git_smart_subtransport_swift "parent" = Some 0%N ∧
     offsetof sizeof alignof git_smart_subtransport_swift "owner" = Some oo ∧
     offsetof sizeof alignof git_smart_subtransport_swift "context" = Some oc ∧
     (sizeof native_sub ≤ oo)%N ∧
     (oo + sizeof owner_ptr ≤ oc)%N ∧
     (oc + sizeof void_ptr
      ≤ struct_size sizeof alignof git_smart_subtransport_swift)%N) ∧
  (∃ oc,
     offsetof sizeof alignof git_smart_subtransport_stream_swift "parent"
       = Some 0%N ∧
     offsetof sizeof alignof git_smart_subtransport_stream_swift "context"
       = Some oc ∧
     (sizeof native_stream ≤ oc)%N ∧
     (oc + sizeof void_ptr
      ≤ struct_size sizeof alignof git_smart_subtransport_stream_swift)%N).
Proof.
  destruct subtransport_layout as (Hp & Ho & Hc & Hsize).
  destruct stream_layout as (Hp' & Hc' & Hsize').
  split.
  - eexists _, _. rewrite Hsize.
    split; [exact Hp|]. split; [exact Ho|]. split; [exact Hc|].
    repeat split; apply align_up_ge.
  - eexists. rewrite Hsize'.
    split; [exact Hp'|]. split; [exact Hc'|].
    repeat split; apply align_up_ge.
Qed.


(** X3: when the end of each preceding member is already a multiple of
    the next member's alignment, and the end of the last member a
    multiple of the alignment of the struct, the wrapper structs contain
    no padding at all: [owner] is exactly at the size of the native
    struct, [context] of the subtransport wrapper exactly one owner
    pointer further, [context] of the stream wrapper exactly at the size
    of the native stream struct, and the size of each wrapper is the sum
    of the sizes of its members. *)
Theorem wrapper_offsets_without_padding :
  (sizeof native_sub mod alignof owner_ptr = 0)%N →
  ((sizeof native_sub + sizeof owner_ptr) mod alignof void_ptr = 0)%N →
  (sizeof native_stream mod alignof void_ptr = 0)%N →
  ((sizeof native_sub + sizeof owner_ptr + sizeof void_ptr)
     mod struct_align alignof git_smart_subtransport_swift = 0)%N →
  ((sizeof native_stream + sizeof void_ptr)
     mod struct_align alignof git_smart_subtransport_stream_swift = 0)%N →
  offsetof sizeof alignof git_smart_subtransport_swift "owner"
    = Some (sizeof native_sub) ∧
  offsetof sizeof alignof git_smart_subtransport_swift "context"
    = Some (sizeof native_sub + sizeof owner_ptr)%N ∧
  offsetof sizeof alignof git_smart_subtransport_stream_swift "context"
    = Some (sizeof native_stream) ∧
  struct_size sizeof alignof git_smart_subtransport_swift
    = (sizeof native_sub + sizeof owner_ptr + sizeof void_ptr)%N ∧
  struct_size sizeof alignof git_smart_subtransport_stream_swift
    = (sizeof native_stream + sizeof void_ptr)%N.
Proof.
  intros H1 H2 H3 H4 H5.
  destruct subtransport_layout as (_ & Hoo & Hoc & Hsize).
  destruct stream_layout as (_ & Hoc' & Hsize').
  rewrite Hoo, Hoc, Hoc', Hsize, Hsize'.
  rewrite (align_up_exact _ _ H1), (align_up_exact _ _ H2),
    (align_up_exact _ _ H3), (align_up_exact _ _ H4),
    (align_up_exact _ _ H5). done.
Qed.

(** X4: when a [void *] has a size, each wrapper struct is strictly
    larger than the native struct it embeds, so storage sized for the
    native struct cannot hold the wrapper. *)
Theorem wrapper_larger_than_native :
  (0 < sizeof void_ptr)%N →
  (sizeof native_sub
   < struct_size sizeof alignof git_smart_subtransport_swift)%N ∧
  (sizeof native_stream
   < struct_size sizeof alignof git_smart_subtransport_stream_swift)%N.
Proof.
  intros Hptr.
  destruct subtransport_layout as (_ & _ & _ & ->).
  destruct stream_layout as (_ & _ & ->).
  split.
  - eapply N.lt_le_trans; [|apply align_up_ge].
    pose proof (align_up_ge (sizeof native_sub) (alignof owner_ptr)).
    pose proof (align_up_ge
      (align_up (sizeof native_sub) (alignof owner_ptr) + sizeof owner_ptr)
      (alignof void_ptr)).
    lia.
  - eapply N.lt_le_trans; [|apply align_up_ge].
    pose proof (align_up_ge (sizeof native_stream) (alignof void_ptr)).
    lia.
Qed.

End WrapperLayout.

(** ** Facts about the transport layer *)

Section RegistryFacts.
Import Transport.
Context {Factory : Type}.
Implicit Types (reg : gmap string Factory) (scheme url rest : string).

Lemma scheme_of_url scheme rest :
  colon_free scheme = true →
  scheme_of (scheme +:+ "://" +:+ rest) = Some scheme.
Proof.
  induction scheme as [|c scheme IH]; intros Hfree.
  - simpl. by destruct rest.
  - simpl in Hfree. apply andb_prop in Hfree as [Hc Hfree].
    change (String c scheme +:+ "://" +:+ rest)
      with (String c (scheme +:+ "://" +:+ rest)).
    cbn [scheme_of String.prefix].
    destruct (Ascii.ascii_dec ":"%char c) as [<-|_]; [discriminate|].
    by rewrite IH.
Qed.

Lemma register_keeps scheme scheme' (f f' : Factory) reg :
  reg !! scheme = Some f →
  (register scheme' f' reg).2 !! scheme = Some f.
Proof.
  intros Hreg. unfold register.
  destruct (reg !! scheme') eqn:Hlook; simpl; [done|].
  rewrite lookup_insert_ne; [done|]. intros ->. congruence.
Qed.

Lemma register_all_keeps (calls : list (string * Factory)) scheme f reg :
  reg !! scheme = Some f →
  (register_all calls reg).2 !! scheme = Some f.
Proof.
  revert reg. induction calls as [|[scheme' f'] calls IH]; intros reg Hreg.
  - done.
  - simpl. pose proof (register_keeps scheme scheme' f f' reg Hreg) as Hk.
    destruct (register scheme' f' reg) as [r reg1]. simpl in Hk.
    specialize (IH reg1 Hk).
    destruct (register_all calls reg1) as [rs reg2]. done.
Qed.

End RegistryFacts.


Section StreamFacts.
Import Transport.
Implicit Types (s : SubtransportStream) (t : Transfer).

Lemma read_closed s maxBytes t :
  closed s = true → read maxBytes t s = (Err StreamIOError, s).
Proof. intros Hc. unfold read. by rewrite Hc. Qed.

Lemma write_closed s bytes t :
  closed s = true → write bytes t s = (Err StreamIOError, s).
Proof. intros Hc. unfold write. by rewrite Hc. Qed.

Lemma stream_close_closed s :
  closed s = true → stream_close s = (Ok (), s).
Proof. intros Hc. unfold stream_close. by rewrite Hc. Qed.

(** [read] and [write] touch neither the closed flag nor the handle, and
    never report a release error. *)
Lemma read_keeps s maxBytes t :
  closed (read maxBytes t s).2 = closed s ∧
  stream_context (read maxBytes t s).2 = stream_context s ∧
  (read maxBytes t s).1 ≠ Err HandleReleaseError.
Proof.
  unfold read. destruct (closed s) eqn:Hc; [simpl; by rewrite Hc|].
  destruct t; simpl; by rewrite ?Hc.
Qed.

Lemma write_keeps s bytes t :
  closed (write bytes t s).2 = closed s ∧
  stream_context (write bytes t s).2 = stream_context s ∧
  (write bytes t s).1 ≠ Err HandleReleaseError.
Proof.
  unfold write. destruct (closed s) eqn:Hc; [simpl; by rewrite Hc|].
  destruct t; simpl; by rewrite ?Hc.
Qed.

(** At end-of-data a read under a working transport returns the
    zero-length result and leaves the stream as it is. *)
Lemma read_at_end s maxBytes burst :
  closed s = false → inbound s = [] →
  read maxBytes (Moves burst) s = (Ok [], s).
Proof.
  intros Hc He. unfold read. rewrite Hc, He, take_nil, drop_nil.
  destruct s; simpl in *. by subst.
Qed.

(** [close()] of a stream always succeeds, leaves the stream closed and
    keeps its handle. *)
Lemma stream_close_spec s :
  (stream_close s).1 = Ok () ∧
  closed (stream_close s).2 = true ∧
  stream_context (stream_close s).2 = stream_context s.
Proof.
  unfold stream_close. destruct (closed s) eqn:Hc; [done|].
  by destruct (direction s).
Qed.

Lemma stream_step_closed (c : StreamCall) s :
  closed s = true →
  (stream_step c s).2 = s ∧
  (is_io c = true → succeeds (stream_step c s).1 = false).
Proof.
  intros Hc. destruct c as [maxBytes t|bytes t|]; simpl.
  - by rewrite read_closed.
  - by rewrite write_closed.
  - by rewrite stream_close_closed.
Qed.

Lemma stream_run_closed (cs : list StreamCall) s :
  closed s = true →
  (stream_run cs s).2 = s ∧
  Forall2 (λ c r, is_io c = true → succeeds r = false) cs (stream_run cs s).1.
Proof.
  intros Hc. induction cs as [|c cs [IH1 IH2]]; simpl; [by split|].
  destruct (stream_step_closed c s Hc) as [Hs Hr].
  destruct (stream_step c s) as [r s1]. simpl in Hs, Hr. subst s1.
  destruct (stream_run cs s) as [rs s2]. simpl in *. split; [done|].
  by constructor.
Qed.

End StreamFacts.

Section HandleFacts.
Import Transport.
Implicit Types (tbl base : gmap N ContextHandle) (h : N).

Lemma issue_spec (obj : N) tbl :
  ((issue obj tbl).1 ∉ dom tbl) ∧
  (issue obj tbl).2 !! (issue obj tbl).1 = Some (Handle obj 0) ∧
  ∀ h, h ∈ dom tbl → (issue obj tbl).2 !! h = tbl !! h.
Proof.
  unfold issue. simpl. pose proof (is_fresh (dom tbl)) as Hfresh.
  split; [done|]. split; [by rewrite lookup_insert_eq|].
  intros h Hh. rewrite lookup_insert_ne; [done|]. by intros <-.
Qed.

(** The first release of an issued handle succeeds and is counted. *)
Lemma release_first h (obj : N) tbl :
  tbl !! h = Some (Handle obj 0) →
  release h tbl = (Ok (), <[h := Handle obj 1]> tbl).
Proof. intros Hh. unfold release. by rewrite Hh. Qed.

Lemma released_iff_insert_ne (b : bool) h h' (e : ContextHandle) tbl :
  h ≠ h' → released_iff b h' tbl → released_iff b h' (<[h := e]> tbl).
Proof.
  intros Hne [obj Hobj]. exists obj. by rewrite lookup_insert_ne.
Qed.

Lemma extends_refl tbl : extends tbl tbl.
Proof. intros h obj n Hh. by exists n. Qed.

Lemma extends_trans tbl1 tbl2 tbl3 :
  extends tbl1 tbl2 → extends tbl2 tbl3 → extends tbl1 tbl3.
Proof.
  intros H12 H23 h obj n Hh.
  destruct (H12 _ _ _ Hh) as [n' Hn']. by apply (H23 _ _ _ Hn').
Qed.

Lemma extends_issue (obj : N) tbl : extends tbl (issue obj tbl).2.
Proof.
  intros h o n Hh. exists n.
  destruct (issue_spec obj tbl) as (_ & _ & Hsame).
  rewrite Hsame; [done|]. apply elem_of_dom. by eexists.
Qed.

Lemma extends_count h (obj : N) (n n' : nat) tbl :
  tbl !! h = Some (Handle obj n) → extends tbl (<[h := Handle obj n']> tbl).
Proof.
  intros Hh h' o m Hh'. destruct (decide (h = h')) as [<-|Hne].
  - rewrite lookup_insert_eq. exists n'. congruence.
  - rewrite lookup_insert_ne by done. by exists m.
Qed.

End HandleFacts.

Section SubtransportFacts.
Import Transport.
Implicit Types (s : SubtransportStream) (st : Subtransport).
Implicit Types (ss : list SubtransportStream).
Implicit Types (tbl base : gmap N ContextHandle) (h : N).

Local Abbreviation active ss := (filter (λ s, closed s = false) ss).

Lemma has_active_false ss :
  existsb (λ s, negb (closed s)) ss = false → active ss = [].
Proof.
  induction ss as [|s ss IH]; simpl; [done|].
  intros [Hs Hss]%orb_false_elim. apply negb_false_iff in Hs.
  rewrite filter_cons_False by congruence. auto.
Qed.

Lemma has_active_true ss :
  active ss ≠ [] → existsb (λ s, negb (closed s)) ss = true.
Proof.
  intros Hne. destruct (existsb _ ss) eqn:He; [done|].
  by apply has_active_false in He.
Qed.

(** Replacing a stream by one that is closed whenever the old one was
    does not add an active stream. *)
Lemma active_insert_le ss i s s' :
  ss !! i = Some s →
  (closed s' = false → closed s = false) →
  length (active (<[i := s']> ss)) ≤ length (active ss).
Proof.
  revert i. induction ss as [|s0 ss IH]; intros [|i] Hi Hcl; simpl in *;
    try done.
  - injection Hi as ->. rewrite !filter_cons.
    destruct (decide (closed s' = false)) as [H'|H'].
    + rewrite decide_True by auto. done.
    + destruct (decide (closed s = false)); simpl; lia.
  - rewrite !filter_cons. specialize (IH i Hi Hcl).
    destruct (decide (closed s0 = false)); simpl; lia.
Qed.

Lemma all_closed_active ss :
  Forall (λ s, closed s = true) ss → active ss = [].
Proof.
  induction 1 as [|s ss Hs _ IH]; [done|].
  rewrite filter_cons_False by congruence. done.
Qed.


(** Replacing a stream by one with the same handle keeps the list of
    handles. *)
Lemma handles_insert ss i s s' :
  ss !! i = Some s → stream_context s' = stream_context s →
  stream_context <$> <[i := s']> ss = stream_context <$> ss.
Proof.
  intros Hi Hctx. rewrite list_fmap_insert, Hctx.
  apply list_insert_id. by rewrite list_lookup_fmap, Hi.
Qed.

Lemma stream_ok_same tbl tbl' s s' :
  closed s' = closed s → stream_context s' = stream_context s →
  tbl' !! stream_context s = tbl !! stream_context s →
  stream_ok tbl s → stream_ok tbl' s'.
Proof.
  intros Hc Hctx Hsame [obj Hobj]. exists obj.
  by rewrite Hc, Hctx, Hsame.
Qed.

(** Ending a stream whose handle count matches its closed flag succeeds,
    releases that handle if the stream was open and touches no other
    handle. *)
Lemma stream_destroy_ok s tbl :
  stream_ok tbl s →
  (stream_destroy s tbl).1.1 = Ok () ∧
  closed (stream_destroy s tbl).1.2 = true ∧
  stream_context (stream_destroy s tbl).1.2 = stream_context s ∧
  stream_ok (stream_destroy s tbl).2 (stream_destroy s tbl).1.2 ∧
  extends tbl (stream_destroy s tbl).2 ∧
  ∀ h, h ≠ stream_context s → (stream_destroy s tbl).2 !! h = tbl !! h.
Proof.
  intros [obj Hobj]. unfold stream_destroy.
  destruct (closed s) eqn:Hc; simpl.
  - split; [done|]. split; [done|]. split; [done|].
    split; [exists obj; by rewrite Hc|]. split; [apply extends_refl|done].
  - rewrite (release_first _ _ _ Hobj). simpl.
    destruct (stream_close_spec s) as (_ & Hcl & Hctx).
    split; [done|]. split; [done|]. split; [done|]. split.
    + exists obj. by rewrite Hcl, Hctx, lookup_insert_eq.
    + split; [by eapply extends_count|].
      intros h Hne. by rewrite lookup_insert_ne.
Qed.

Lemma close_streams_ok ss tbl :
  Forall (stream_ok tbl) ss → NoDup (stream_context <$> ss) →
  ∃ ss' tbl',
    close_streams ss tbl = (Ok ss', tbl') ∧
    stream_context <$> ss' = stream_context <$> ss ∧
    Forall (λ s, closed s = true) ss' ∧
    Forall (stream_ok tbl') ss' ∧
    extends tbl tbl' ∧
    ∀ h, h ∉ stream_context <$> ss → tbl' !! h = tbl !! h.
Proof.
  revert tbl. induction ss as [|s ss IH]; intros tbl Hok Hnd; simpl.
  - exists [], tbl. repeat split; try constructor. apply extends_refl.
  - apply Forall_cons in Hok as [Hs Hss].
    rewrite fmap_cons in Hnd. apply NoDup_cons in Hnd as [Hnotin Hnd].
    destruct (stream_destroy_ok s tbl Hs) as (Hr & Hcl & Hctx & Hs' & He & Hsame).
    destruct (stream_destroy s tbl) as [[r s'] tbl1]. simpl in *. subst r.
    assert (Hss1 : Forall (stream_ok tbl1) ss).
    { apply Forall_forall. intros s2 Hin.
      rewrite Forall_forall in Hss. specialize (Hss s2 Hin).
      eapply stream_ok_same; [done|done| |done].
      apply Hsame. intros Heq. apply Hnotin. rewrite <-Heq.
      by apply list_elem_of_fmap_2. }
    destruct (IH tbl1 Hss1 Hnd) as (ss' & tbl2 & -> & Hh & Hc2 & Hok2 & He2 & Hsame2).
    exists (s' :: ss'), tbl2. split; [done|].
    split; [by rewrite fmap_cons, Hh, Hctx|].
    split; [by constructor|]. split; [|split].
    + constructor; [|done].
      destruct Hs' as [obj Hobj]. exists obj.
      rewrite Hsame2; [done|]. by rewrite Hctx.
    + by eapply extends_trans.
    + intros h [Hne Hnotin']%not_elem_of_cons.
      rewrite Hsame2 by done. by apply Hsame.
Qed.

(** Every handle the subtransport holds, and every handle of the table it
    was opened on, is in the table. *)
Lemma held_in_dom base st tbl h :
  consistent base st tbl → h ∈ held st → h ∈ dom tbl.
Proof.
  intros [[obj Hobj] Hss _ _ _ _] [->|Hin]%elem_of_cons.
  - apply elem_of_dom. by eexists.
  - apply list_elem_of_fmap in Hin as (s & -> & Hs).
    rewrite Forall_forall in Hss. destruct (Hss s Hs) as [o Ho].
    apply elem_of_dom. by eexists.
Qed.

Lemma base_in_dom base st tbl h :
  consistent base st tbl → h ∈ dom base → h ∈ dom tbl.
Proof.
  intros [_ _ _ Hframe _ _] Hh. destruct (Hframe h Hh) as [_ Hsame].
  apply elem_of_dom. rewrite Hsame. by apply elem_of_dom.
Qed.

(** What every call keeps: the invariant, no release error, the owner
    pointer and the context handle, a state that is [Closed] only if it
    was, and the handles issued so far. *)
Local Abbreviation kept base st tbl x :=
  (consistent base x.1.2 x.2 ∧ x.1.1 ≠ Err HandleReleaseError ∧
   ownerHandle x.1.2 = ownerHandle st ∧
   context x.1.2 = context st ∧
   (connectionState x.1.2 = Closed ↔ connectionState st = Closed) ∧
   extends tbl x.2).

Lemma open_consistent url dir owner obj base st tbl :
  open url dir owner obj base = (Ok st, tbl) →
  consistent base st tbl ∧ connectionState st = Created ∧ streams st = [] ∧
  ownerHandle st = owner ∧ tbl !! context st = Some (Handle obj 0) ∧
  context st ∉ dom base.
Proof.
  unfold open. destruct (scheme_of url); [|done].
  destruct (issue_spec obj base) as (Hfresh & Hnew & Hsame).
  destruct (issue obj base) as [h tbl1]. simpl in *.
  intros [= <- <-]. simpl. split; [|done]. split; simpl.
  - by exists obj.
  - constructor.
  - apply NoDup_singleton.
  - intros h' Hh'. split; [|by apply Hsame].
    intros ->%list_elem_of_singleton. done.
  - unfold active_streams. simpl. lia.
  - done.
Qed.

Lemma action_kept ty obj conn base st tbl :
  consistent base st tbl → kept base st tbl (action ty obj conn st tbl).
Proof.
  intros Hst. unfold action.
  destruct (has_active_stream st) eqn:Ha.
  { simpl. split_and!; try done. apply extends_refl. }
  apply has_active_false in Ha.
  destruct (decide (connectionState st = Closed)) as [HC|HC].
  { rewrite HC. simpl. split_and!; try done. apply extends_refl. }
  destruct (decide (connectionState st = Failed)) as [HF|HF].
  { rewrite HF. simpl. split_and!; try done. apply extends_refl. }
  assert (Hdefault : ∀ (X : Type) (a b c : X),
            match connectionState st with
            | Closed => a | Failed => b | _ => c
            end = c)
    by (intros; by destruct (connectionState st)).
  rewrite Hdefault. clear Hdefault.
  pose proof (λ h, held_in_dom base st tbl h Hst) as Hdom.
  pose proof (λ h, base_in_dom base st tbl h Hst) as Hbase.
  destruct Hst as [Hh Hss Hnd Hfr H1 Hc].
  rewrite bool_decide_false in Hh by done.
  destruct conn as [data|].
  - pose proof (extends_issue obj tbl) as Hext.
    destruct (issue_spec obj tbl) as (Hfresh & Hnew & Hsame).
    destruct (issue obj tbl) as [h tbl1]. simpl in Hext, Hfresh, Hnew, Hsame.
    simpl. split_and!; try done. split; simpl.
    + destruct Hh as [o Ho]. exists o. rewrite Hsame; [done|].
      apply Hdom. by left.
    + apply Forall_app. split; [|constructor; [by exists obj|constructor]].
      apply Forall_forall. intros s Hs. rewrite Forall_forall in Hss.
      eapply stream_ok_same; [done|done| |by apply Hss].
      apply Hsame, Hdom. right. by apply list_elem_of_fmap_2.
    + unfold held in *. simpl. rewrite fmap_app. simpl.
      rewrite app_comm_cons. apply NoDup_app. split; [done|].
      split; [|apply NoDup_singleton].
      intros h' Hin ->%list_elem_of_singleton. by apply Hfresh, Hdom.
    + intros h' Hh'. destruct (Hfr h' Hh') as [Hnot Hlook].
      split; [|by rewrite Hsame by auto].
      unfold held in *. simpl. rewrite fmap_app. simpl.
      rewrite app_comm_cons.
      intros [Hin| ->%list_elem_of_singleton]%elem_of_app; [done|].
      by apply Hfresh, Hbase.
    + unfold active_streams. simpl. rewrite filter_app.
      unfold active_streams in Ha. rewrite Ha. simpl. lia.
    + done.
  - simpl. split_and!; try done; apply extends_refl.
Qed.

Lemma active_member base st tbl i s :
  consistent base st tbl → streams st !! i = Some s → closed s = false →
  connectionState st ≠ Closed.
Proof.
  intros [_ _ _ _ _ Hc] Hi Hs HC. specialize (Hc HC).
  assert (Hin : s ∈ active_streams st).
  { apply list_elem_of_filter. split; [done|].
    by eapply list_elem_of_lookup_2. }
  rewrite Hc in Hin. by apply not_elem_of_nil in Hin.
Qed.

(** A call on one stream that changes neither its closed flag nor its
    handle, nor the handle table. *)
Lemma io_kept {A} (r : Result A) i s s' base st tbl :
  consistent base st tbl → streams st !! i = Some s →
  closed s' = closed s → stream_context s' = stream_context s →
  r ≠ Err HandleReleaseError →
  kept base st tbl
    (r, with_state (after_io (closed s) r (connectionState st))
          (with_streams (<[i := s']> (streams st)) st), tbl).
Proof.
  intros Hst Hi Hcl Hctx Hr.
  assert (Hstate : after_io (closed s) r (connectionState st) = Closed
                   ↔ connectionState st = Closed).
  { unfold after_io. destruct r as [a|[]]; try done.
    destruct (closed s) eqn:Hcs; [done|].
    split; [done|]. intros HC. by destruct (active_member base st tbl i s). }
  pose proof Hst as [Hh Hss Hnd Hfr H1 Hc].
  assert (Hheld : held (with_state (after_io (closed s) r (connectionState st))
                    (with_streams (<[i := s']> (streams st)) st)) = held st).
  { unfold held. simpl. by rewrite (handles_insert _ _ _ _ Hi Hctx). }
  assert (Hle : length (active_streams (with_state
                  (after_io (closed s) r (connectionState st))
                  (with_streams (<[i := s']> (streams st)) st))) ≤
                length (active_streams st)).
  { unfold active_streams. simpl.
    eapply active_insert_le; [done|]. by rewrite Hcl. }
  simpl. split_and!; try done; [|apply extends_refl]. split.
  - simpl. by rewrite (bool_decide_ext _ _ Hstate).
  - simpl. apply Forall_insert; [done|].
    eapply stream_ok_same; [done|done|done|].
    by apply (Forall_lookup_1 _ _ _ _ Hss Hi).
  - by rewrite Hheld.
  - intros h Hh'. rewrite Hheld. by apply Hfr.
  - lia.
  - intros HC. simpl in HC. apply Hstate in HC. specialize (Hc HC).
    rewrite Hc in Hle. simpl in Hle. apply length_zero_iff_nil. lia.
Qed.

Lemma stream_read_kept i maxBytes t base st tbl :
  consistent base st tbl →
  kept base st tbl (stream_read i maxBytes t st, tbl).
Proof.
  intros Hst. unfold stream_read.
  destruct (streams st !! i) as [s|] eqn:Hi.
  - destruct (read_keeps s maxBytes t) as (Hcl & Hctx & Hr).
    destruct (read maxBytes t s) as [r s']. by apply (io_kept r i s s').
  - simpl. split_and!; try done. apply extends_refl.
Qed.

Lemma stream_write_kept i bytes t base st tbl :
  consistent base st tbl →
  kept base st tbl (stream_write i bytes t st, tbl).
Proof.
  intros Hst. unfold stream_write.
  destruct (streams st !! i) as [s|] eqn:Hi.
  - destruct (write_keeps s bytes t) as (Hcl & Hctx & Hr).
    destruct (write bytes t s) as [r s']. by apply (io_kept r i s s').
  - simpl. split_and!; try done. apply extends_refl.
Qed.

Lemma stream_close_at_kept i base st tbl :
  consistent base st tbl →
  kept base st tbl (stream_close_at i st tbl).
Proof.
  intros Hst. unfold stream_close_at.
  destruct (streams st !! i) as [s|] eqn:Hi;
    [|simpl; split_and!; try done; apply extends_refl].
  pose proof Hst as [Hh Hss Hnd Hfr H1 Hc].
  destruct (stream_destroy_ok s tbl (Forall_lookup_1 _ _ _ _ Hss Hi))
    as (Hr & Hcl & Hctx & Hok & Hext & Hsame).
  destruct (stream_destroy s tbl) as [[r s'] tbl1]. simpl in *. subst r.
  assert (Hin : stream_context s ∈ stream_context <$> streams st).
  { apply list_elem_of_fmap_2. by eapply list_elem_of_lookup_2. }
  assert (Hheld : held (with_streams (<[i := s']> (streams st)) st) = held st).
  { unfold held. simpl. by rewrite (handles_insert _ _ _ _ Hi Hctx). }
  assert (Hle : length (active_streams (with_streams (<[i := s']> (streams st)) st))
                ≤ length (active_streams st)).
  { unfold active_streams. simpl.
    eapply active_insert_le; [done|]. by rewrite Hcl. }
  unfold held in Hnd. apply NoDup_cons in Hnd as [Hctxnot Hnd].
  split_and!; try done. split; simpl.
  - destruct Hh as [o Ho]. exists o. rewrite Hsame; [done|].
    intros Heq. apply Hctxnot. by rewrite Heq.
  - apply Forall_lookup. intros j x Hj.
    destruct (decide (i = j)) as [<-|Hne].
    + rewrite list_lookup_insert_eq in Hj by (by eapply lookup_lt_Some).
      by injection Hj as <-.
    + rewrite list_lookup_insert_ne in Hj by done.
      eapply stream_ok_same; [done|done| |by eapply Forall_lookup_1].
      apply Hsame. intros Heq. apply Hne.
      eapply NoDup_lookup; [exact Hnd| |].
      * by rewrite list_lookup_fmap, Hi.
      * rewrite list_lookup_fmap, Hj. simpl. by rewrite Heq.
  - rewrite Hheld. unfold held. by apply NoDup_cons.
  - intros h Hh'. rewrite Hheld. destruct (Hfr h Hh') as [Hnot Hlook].
    split; [done|]. rewrite Hsame; [done|].
    intros Heq. apply Hnot. right. by rewrite Heq.
  - lia.
  - intros HC. rewrite (Hc HC) in Hle. simpl in Hle.
    apply length_zero_iff_nil. lia.
Qed.

(** [close()] on a consistent subtransport succeeds and leaves it
    [Closed], with the same pointers. *)
Lemma close_kept base st tbl :
  consistent base st tbl →
  consistent base (close st tbl).1.2 (close st tbl).2 ∧
  (close st tbl).1.1 = Ok () ∧
  ownerHandle (close st tbl).1.2 = ownerHandle st ∧
  context (close st tbl).1.2 = context st ∧
  connectionState (close st tbl).1.2 = Closed ∧
  extends tbl (close st tbl).2.
Proof.
  intros Hst. unfold close.
  destruct (decide (connectionState st = Closed)) as [HC|HC].
  { rewrite HC. simpl. split_and!; try done. apply extends_refl. }
  assert (Hdefault : ∀ (X : Type) (a b : X),
            match connectionState st with Closed => a | _ => b end = b)
    by (intros; by destruct (connectionState st)).
  rewrite Hdefault. clear Hdefault.
  pose proof Hst as [Hh Hss Hnd Hfr H1 Hc].
  rewrite bool_decide_false in Hh by done. destruct Hh as [obj Hobj].
  unfold held in Hnd. apply NoDup_cons in Hnd as [Hctxnot Hnd].
  destruct (close_streams_ok _ _ Hss Hnd)
    as (ss' & tbl1 & -> & Hhandles & Hcl & Hok & Hext & Hsame).
  rewrite (release_first (context st) obj tbl1)
    by (by rewrite Hsame).
  simpl. split_and!; try done.
  - split; simpl.
    + exists obj. by rewrite lookup_insert_eq.
    + apply Forall_forall. intros s Hs. rewrite Forall_forall in Hok.
      apply released_iff_insert_ne; [|by apply Hok].
      intros Heq. apply Hctxnot. rewrite <-Hhandles, Heq.
      by apply list_elem_of_fmap_2.
    + unfold held. simpl. rewrite Hhandles. by apply NoDup_cons.
    + intros h Hh'. destruct (Hfr h Hh') as [Hnot Hlook].
      unfold held in *. simpl. rewrite Hhandles. split; [done|].
      apply not_elem_of_cons in Hnot as [Hne Hnot].
      rewrite lookup_insert_ne by done. by rewrite Hsame.
    + unfold active_streams. simpl. rewrite (all_closed_active _ Hcl).
      simpl. lia.
    + intros _. unfold active_streams. simpl.
      by rewrite (all_closed_active _ Hcl).
  - eapply extends_trans; [done|]. eapply extends_count. by rewrite Hsame.
Qed.

Lemma reply_no_release_error {A} (f : A → Reply) (r : Result A) :
  r ≠ Err HandleReleaseError → reply f r ≠ Err HandleReleaseError.
Proof. destruct r; simpl; congruence. Qed.

Lemma step_kept (c : Call) base st tbl :
  consistent base st tbl →
  consistent base (step c st tbl).1.2 (step c st tbl).2 ∧
  (step c st tbl).1.1 ≠ Err HandleReleaseError ∧
  ownerHandle (step c st tbl).1.2 = ownerHandle st ∧
  context (step c st tbl).1.2 = context st ∧
  (connectionState (step c st tbl).1.2 = Closed
   ↔ is_close c = true ∨ connectionState st = Closed) ∧
  extends tbl (step c st tbl).2.
Proof.
  intros Hst. destruct c as [ty obj conn|i maxBytes t|i bytes t|i|]; simpl.
  - destruct (action_kept ty obj conn base st tbl Hst)
      as (H1 & H2 & H3 & H4 & H5 & H6).
    destruct (action ty obj conn st tbl) as [[r st'] tbl']. simpl in *.
    split_and!; try done; [by apply reply_no_release_error|].
    rewrite H5. intuition discriminate.
  - destruct (stream_read_kept i maxBytes t base st tbl Hst)
      as (H1 & H2 & H3 & H4 & H5 & H6).
    destruct (stream_read i maxBytes t st) as [r st']. simpl in *.
    split_and!; try done; [by apply reply_no_release_error|].
    rewrite H5. intuition discriminate.
  - destruct (stream_write_kept i bytes t base st tbl Hst)
      as (H1 & H2 & H3 & H4 & H5 & H6).
    destruct (stream_write i bytes t st) as [r st']. simpl in *.
    split_and!; try done; [by apply reply_no_release_error|].
    rewrite H5. intuition discriminate.
  - destruct (stream_close_at_kept i base st tbl Hst)
      as (H1 & H2 & H3 & H4 & H5 & H6).
    destruct (stream_close_at i st tbl) as [[r st'] tbl']. simpl in *.
    split_and!; try done; [by apply reply_no_release_error|].
    rewrite H5. intuition discriminate.
  - destruct (close_kept base st tbl Hst) as (H1 & H2 & H3 & H4 & H5 & H6).
    destruct (close st tbl) as [[r st'] tbl']. simpl in *. subst r.
    split_and!; try done; tauto.
Qed.

Lemma run_kept (cs : list Call) base st tbl :
  consistent base st tbl →
  consistent base (run cs st tbl).1.2 (run cs st tbl).2 ∧
  Forall (λ r, r ≠ Err HandleReleaseError) (run cs st tbl).1.1 ∧
  ownerHandle (run cs st tbl).1.2 = ownerHandle st ∧
  context (run cs st tbl).1.2 = context st ∧
  (connectionState (run cs st tbl).1.2 = Closed
   ↔ closes cs = true ∨ connectionState st = Closed) ∧
  extends tbl (run cs st tbl).2.
Proof.
  revert st tbl. induction cs as [|c cs IH]; intros st tbl Hst; simpl.
  - split_and!; try done; try apply extends_refl. intuition discriminate.
  - destruct (step_kept c base st tbl Hst) as (H1 & H2 & H3 & H4 & H5 & H6).
    destruct (step c st tbl) as [[r st1] tbl1]. simpl in *.
    destruct (IH st1 tbl1 H1) as (I1 & I2 & I3 & I4 & I5 & I6).
    destruct (run cs st1 tbl1) as [[rs st2] tbl2]. simpl in *.
    split; [done|]. split; [by constructor|].
    split; [congruence|]. split; [congruence|]. split.
    + rewrite I5, H5, orb_true_iff. tauto.
    + by eapply extends_trans.
Qed.

(** On a consistent subtransport [close()] succeeds, and closing again
    changes nothing. *)
Lemma close_twice base st tbl :
  consistent base st tbl →
  (close st tbl).1.1 = Ok () ∧
  close (close st tbl).1.2 (close st tbl).2
    = (Ok (), (close st tbl).1.2, (close st tbl).2).
Proof.
  intros (_ & Hr & _ & _ & HC & _)%close_kept. split; [done|].
  unfold close at 1. by rewrite HC.
Qed.

End SubtransportFacts.

(** ** The properties of the transport layer *)

Section TransportProperties.
Import Header Transport.

(** C10: a URL whose scheme is registered resolves to the factory
    registered for it, also after any further registrations; a URL whose
    scheme has no entry fails with [UnsupportedSchemeError]; registering
    a scheme that is already registered fails with
    [DuplicateSchemeError] and leaves the registry as it was. *)
Theorem registry_scheme_resolution {Factory : Type}
    (reg : gmap string Factory) (scheme : string) (factory : Factory) :
  (reg !! scheme = Some factory →
     (∀ url, scheme_of url = Some scheme → resolve url reg = Ok factory) ∧
     (colon_free scheme = true →
      ∀ rest, resolve (scheme +:+ "://" +:+ rest) reg = Ok factory) ∧
     (∀ factory', register scheme factory' reg
                  = (Err DuplicateSchemeError, reg)) ∧
     (∀ calls url, scheme_of url = Some scheme →
                   resolve url (register_all calls reg).2 = Ok factory)) ∧
  (reg !! scheme = None →
     (∀ url, scheme_of url = Some scheme →
             resolve url reg = Err UnsupportedSchemeError) ∧
     register scheme factory reg = (Ok (), <[scheme := factory]> reg) ∧
     (∀ url, scheme_of url = Some scheme →
             resolve url (register scheme factory reg).2 = Ok factory)).
Proof.
  split; intros Hreg.
  - split; [|split; [|split]].
    + intros url Hurl. unfold resolve. by rewrite Hurl, Hreg.
    + intros Hfree rest. unfold resolve.
      by rewrite (scheme_of_url _ _ Hfree), Hreg.
    + intros factory'. unfold register. by rewrite Hreg.
    + intros calls url Hurl. unfold resolve.
      by rewrite Hurl, (register_all_keeps calls _ _ _ Hreg).
  - split; [|split].
    + intros url Hurl. unfold resolve. by rewrite Hurl, Hreg.
    + unfold register. by rewrite Hreg.
    + intros url Hurl. unfold resolve, register.
      rewrite Hurl, Hreg. simpl. by rewrite lookup_insert_eq.
Qed.



(** C8: in every state reachable from a freshly constructed
    subtransport at most one stream is active; while one is, [action()]
    fails with [SequenceError] and changes nothing; in particular a
    second [action()] right after a successful first one fails so and
    leaves the subtransport with its one stream. *)
Theorem at_most_one_active_stream (url : string) (dir : Direction)
    (owner obj : N) (base tbl0 : gmap N ContextHandle) (st : Subtransport)
    (cs : list Call) :
  open url dir owner obj base = (Ok st, tbl0) →
  length (active_streams (run cs st tbl0).1.2) ≤ 1 ∧
  (active_streams (run cs st tbl0).1.2 ≠ [] →
   ∀ ty obj' conn tbl,
     action ty obj' conn (run cs st tbl0).1.2 tbl
       = (Err SequenceError, (run cs st tbl0).1.2, tbl)) ∧
  (∀ ty1 obj1 data ty2 obj2 conn,
     (run [CallAction ty1 obj1 (Some data); CallAction ty2 obj2 conn]
          st tbl0).1.1
       = [Ok (Opened 0); Err SequenceError] ∧
     length (streams
       (run [CallAction ty1 obj1 (Some data); CallAction ty2 obj2 conn]
            st tbl0).1.2)
       = 1).
Proof.
  intros Hopen.
  pose proof (open_consistent _ _ _ _ _ _ _ Hopen)
    as (Hst & Hcreated & Hnone & _).
  destruct (run_kept cs base st tbl0 Hst) as ([_ _ _ _ H1 _] & _).
  split; [done|]. split.
  - intros Hne ty obj' conn tbl. unfold action, has_active_stream.
    by rewrite (has_active_true _ Hne).
  - intros ty1 obj1 data ty2 obj2 conn.
    destruct st as [u c o h d ss]. simpl in *. subst c ss. done.
Qed.

(** C9: on a stream that is not closed, a read at end-of-data under a
    working transport returns the zero-length result and leaves the
    stream as it is, while a read under a failing transport fails with
    [StreamIOError], at end-of-data or not, and leaves the subtransport
    of the stream [Failed]; on a closed stream no read or write of any
    later run succeeds, and the stream stays closed. *)
Theorem read_distinguishes_eof_from_failure (s : SubtransportStream) :
  (closed s = false → inbound s = [] →
   ∀ maxBytes burst, read maxBytes (Moves burst) s = (Ok [], s)) ∧
  (closed s = false →
   ∀ maxBytes, read maxBytes Fails s = (Err StreamIOError, s)) ∧
  (closed s = false →
   ∀ st i maxBytes, streams st !! i = Some s →
     (stream_read i maxBytes Fails st).1 = Err StreamIOError ∧
     connectionState (stream_read i maxBytes Fails st).2 = Failed) ∧
  (closed s = true →
   ∀ cs, (stream_run cs s).2 = s ∧
         Forall2 (λ c r, is_io c = true → succeeds r = false)
                 cs (stream_run cs s).1).
Proof.
  split; [|split; [|split]].
  - intros Hc He maxBytes burst. by apply read_at_end.
  - intros Hc maxBytes. unfold read. by rewrite Hc.
  - intros Hc st i maxBytes Hi.
    assert (Hr : read maxBytes Fails s = (Err StreamIOError, s))
      by (unfold read; by rewrite Hc).
    unfold stream_read. rewrite Hi, Hr. simpl. by rewrite Hc.
  - intros Hc cs. by apply stream_run_closed.
Qed.


End TransportProperties.

(** ** The properties at concrete inputs *)

Section Instances.
Import Header Transport.



(** After one successful [action()] a second one fails with
    [SequenceError]. *)
Lemma at_most_one_active_stream_witness :
  open "mock://repo" Duplex 1 2 ∅
    = (Ok (Sub "mock://repo" Created 1 0 Duplex []),
       <[0%N := Handle 2 0]> ∅) ∧
  (action UploadPack 4 (Some [])
     (run [CallAction UploadPackLs 3 (Some [])]
          (Sub "mock://repo" Created 1 0 Duplex [])
          (<[0%N := Handle 2 0]> ∅)).1.2
     (run [CallAction UploadPackLs 3 (Some [])]
          (Sub "mock://repo" Created 1 0 Duplex [])
          (<[0%N := Handle 2 0]> ∅)).2).1.1
    = Err SequenceError.
Proof.
  assert (Hopen : open "mock://repo" Duplex 1 2 ∅
                  = (Ok (Sub "mock://repo" Created 1 0 Duplex []),
                     <[0%N := Handle 2 0]> ∅)) by reflexivity.
  split; [exact Hopen|].
  destruct (at_most_one_active_stream "mock://repo" Duplex 1 2
              ∅ (<[0%N := Handle 2 0]> ∅)
              (Sub "mock://repo" Created 1 0 Duplex [])
              [CallAction UploadPackLs 3 (Some [])] Hopen)
    as (_ & Hseq & _).
  rewrite Hseq; [reflexivity|]. simpl. discriminate.
Defined.

(** An open stream at end-of-data under a working and under a failing
    transport, the same stream inside a subtransport, and a closed
    stream. *)
Lemma read_distinguishes_eof_from_failure_witness :
  read 4 (Moves 4) (Stream UploadPackLs Duplex false 1 [] [] [])
    = (Ok [], Stream UploadPackLs Duplex false 1 [] [] []) ∧
  read 4 Fails (Stream UploadPackLs Duplex false 1 [] [] [])
    = (Err StreamIOError, Stream UploadPackLs Duplex false 1 [] [] []) ∧
  connectionState
    (stream_read 0 4 Fails
       (Sub "mock://repo" Open 9 0 Duplex
          [Stream UploadPackLs Duplex false 1 [] [] []])).2 = Failed ∧
  (stream_run [SRead 4 (Moves 4); SWrite [x30] (Moves 4)]
     (Stream UploadPackLs Duplex true 1 [x30] [] [])).2
    = Stream UploadPackLs Duplex true 1 [x30] [] [].
Proof.
  split; [|split; [|split]].
  - exact (proj1 (read_distinguishes_eof_from_failure
                    (Stream UploadPackLs Duplex false 1 [] [] []))
             eq_refl eq_refl 4 4%positive).
  - exact (proj1 (proj2 (read_distinguishes_eof_from_failure
                    (Stream UploadPackLs Duplex false 1 [] [] [])))
             eq_refl 4).
  - exact (proj2 (proj1 (proj2 (proj2 (read_distinguishes_eof_from_failure
                    (Stream UploadPackLs Duplex false 1 [] [] []))))
             eq_refl
             (Sub "mock://repo" Open 9 0 Duplex
                [Stream UploadPackLs Duplex false 1 [] [] []])
             0 4 eq_refl)).
  - exact (proj1 (proj2 (proj2 (proj2 (read_distinguishes_eof_from_failure
                    (Stream UploadPackLs Duplex true 1 [x30] [] []))))
             eq_refl [SRead 4 (Moves 4); SWrite [x30] (Moves 4)])).
Defined.

(** A registry holding the scheme [mock]: [mock://repo] resolves to its
    factory, [mock] cannot be registered again, and [unknown://x] is
    unsupported. *)
Lemma registry_scheme_resolution_witness :
  resolve "mock://repo" (<["mock" := 7]> (∅ : gmap string nat)) = Ok 7 ∧
  register "mock" 8 (<["mock" := 7]> (∅ : gmap string nat))
    = (Err DuplicateSchemeError, <["mock" := 7]> ∅) ∧
  resolve "unknown://x" (<["mock" := 7]> (∅ : gmap string nat))
    = Err UnsupportedSchemeError.
Proof.
  destruct (registry_scheme_resolution
              (<["mock" := 7]> (∅ : gmap string nat)) "mock" 7)
    as [Hregistered _].
  destruct (Hregistered (lookup_insert_eq _ _ _)) as (_ & Hurl & Hdup & _).
  destruct (registry_scheme_resolution
              (<["mock" := 7]> (∅ : gmap string nat)) "unknown" 9)
    as [_ Hmissing].
  destruct (Hmissing eq_refl) as (Hunknown & _).
  split; [exact (Hurl eq_refl "repo")|].
  split; [exact (Hdup 8)|].
  exact (Hunknown "unknown://x" eq_refl).
Defined.


End Instances.

(** ** The layout properties under a 64-bit ABI *)

Section LayoutInstances.
Import Header.

(** Pointers of 8 bytes aligned to 8; the native structs, made of
    pointers, taken as 24 bytes. *)
Local Abbreviation sizeof64 :=
  (λ t : ctype, match t with Tvoid => 1 | Tnamed _ => 24 | Tpointer _ => 8 end%N).
Local Abbreviation alignof64 :=
  (λ t : ctype, match t with Tvoid => 1 | _ => 8 end%N).
Local Abbreviation sizeof_lp64 :=
  (λ t : ctype,
     match t with
     | Tvoid => 1
     | Tnamed name =>
         if String.eqb name "git_smart_subtransport_stream" then 32 else 24
     | Tpointer _ => 8
     end%N).


(** The same pointers, with the native structs at the sizes their
    pointer members give them: three pointers for the subtransport, four
    for the stream. *)
Lemma wrapper_offsets_without_padding_witness :
  offsetof sizeof_lp64 alignof64 git_smart_subtransport_swift "owner"
    = Some 24%N ∧
  offsetof sizeof_lp64 alignof64 git_smart_subtransport_swift "context"
    = Some 32%N ∧
  offsetof sizeof_lp64 alignof64 git_smart_subtransport_stream_swift "context"
    = Some 32%N ∧
  struct_size sizeof_lp64 alignof64 git_smart_subtransport_swift = 40%N ∧
  struct_size sizeof_lp64 alignof64 git_smart_subtransport_stream_swift
    = 40%N.
Proof.
  exact (wrapper_offsets_without_padding sizeof_lp64 alignof64
           eq_refl eq_refl eq_refl eq_refl eq_refl).
Defined.

Lemma wrapper_larger_than_native_witness :
  (24 < struct_size sizeof64 alignof64 git_smart_subtransport_swift)%N ∧
  (24 < struct_size sizeof64 alignof64 git_smart_subtransport_stream_swift)%N.
Proof.
  apply (wrapper_larger_than_native sizeof64 alignof64). reflexivity.
Defined.

End LayoutInstances.
